(** * Verification of the [retry] and [roundtrip] packages

    The development embeds two Go functions and proves properties of them:

    - [retry.ExponentialRetry] (retry/retry.go), the bounded exponential
      retry loop, and
    - [TestingRoundTripper.RoundTrip] (roundtrip/roundtrip.go), the mock
      HTTP transport that replays canned responses.

    Machine integers are integers [Z] with their wrap-around written out.
    The retry loop talks to the outside world (the operation it retries, the
    timer, the context); the outside world is an abstract state [W] that the
    operation and the [select] statement read and update, and every
    interaction is recorded in a trace of events. *)

From Equations Require Import Equations.
From Stdlib Require Import ZArith List String Bool Lia.
From Stdlib Require DecimalString.
From Stdlib.Strings Require Byte.
Import ListNotations.

Open Scope Z_scope.

(** ** Go machine integers *)

Module GoInt.

(** [uint] on a 64-bit platform: the integers of [0, 2^64). *)
Definition uint_modulus : Z := 2 ^ 64.

Definition in_uint (z : Z) : bool := (0 <=? z) && (z <? uint_modulus).

Record uint : Type := MkUint {
  uint_val : Z;
  uint_ok : in_uint uint_val = true
}.

Definition uint_wrap (z : Z) : Z := z mod uint_modulus.

Lemma uint_wrap_ok (z : Z) : in_uint (uint_wrap z) = true.
Proof.
  unfold in_uint, uint_wrap, uint_modulus.
  pose proof (Z.mod_pos_bound z (2 ^ 64) ltac:(lia)).
  apply andb_true_intro; split; [apply Z.leb_le | apply Z.ltb_lt]; lia.
Qed.

(** Conversion [uint(z)], reducing modulo [2^64]. *)
Definition uint_of_Z (z : Z) : uint := MkUint (uint_wrap z) (uint_wrap_ok z).

(** [a++] on a [uint]. *)
Definition uint_incr (a : uint) : uint := uint_of_Z (uint_val a + 1).

(** [int64], and so [time.Duration]: signed, two's complement. *)
Definition int64_min : Z := - 2 ^ 63.
Definition int64_max : Z := 2 ^ 63 - 1.

Definition in_int64 (z : Z) : Prop := int64_min <= z <= int64_max.

Definition int64_wrap (z : Z) : Z := (z + 2 ^ 63) mod 2 ^ 64 - 2 ^ 63.

Definition int64_mul (a b : Z) : Z := int64_wrap (a * b).

(** [x << n] at type [int64] with an unsigned count [n]: the bits shifted
    out are lost, and a count of 64 or more leaves nothing. *)
Definition int64_shl (x : Z) (n : uint) : Z :=
  if 64 <=? uint_val n then 0 else int64_wrap (Z.shiftl x (uint_val n)).

End GoInt.

Import GoInt.

(** ** retry/retry.go *)

Module Retry.

(** [time.Duration] is an [int64] count of nanoseconds; [time.Time] is only
    ever read through [ctx.Deadline()], whose value the code drops. *)
Definition Duration : Type := Z.
Definition time_Time : Type := Z.

(** [backoff := baseBackoff * time.Duration(1<<attempt)].  The untyped
    constant [1] takes the type of the conversion, so the shift and the
    product are both computed at [int64]. *)
Definition backoff_of (baseBackoff : Duration) (attempt : uint) : Duration :=
  int64_mul baseBackoff (int64_shl 1 attempt).

(** What the outside world can observe of one call. *)
Inductive event : Type :=
| EvCall                       (* fn() was invoked *)
| EvTimer (d : Duration)       (* select: <-time.After(d) was received *)
| EvDone (d : Duration)        (* select: <-ctx.Done() was received while
                                  time.After(d) was pending *)
| EvLog (msg : string).        (* slog.Info(msg) *)

Definition is_call (ev : event) : bool :=
  match ev with EvCall => true | _ => false end.

(** Number of invocations of the operation in a trace. *)
Definition invocations (tr : list event) : Z :=
  Z.of_nat (List.length (List.filter is_call tr)).

(** Durations handed to [time.After], in order. *)
Fixpoint waits (tr : list event) : list Duration :=
  match tr with
  | [] => []
  | EvTimer d :: tr' => d :: waits tr'
  | EvDone d :: tr' => d :: waits tr'
  | _ :: tr' => waits tr'
  end.


(** A trace with its log lines left out. *)
Fixpoint without_logs (tr : list event) : list event :=
  match tr with
  | [] => []
  | EvLog _ :: tr' => without_logs tr'
  | ev :: tr' => ev :: without_logs tr'
  end.

(** Subterm view used to keep the outcome of a test as a hypothesis. *)
Definition inspect {A : Type} (a : A) : {b : A | a = b} := exist _ a eq_refl.

Section ExponentialRetry.

(** [T] is the type parameter with its zero value; [E] are the non-nil
    error values that reach the function from outside (from the operation
    and from the context); [W] is the state of the outside world. *)
Context {T E W : Type}.
Variable zero : T.

(** [errors.Is(e, context.DeadlineExceeded)]. *)
Variable is_DeadlineExceeded : E -> bool.

(** Error values as the caller sees them: those allocated by the function
    itself with [errors.New], which are distinct from every value that
    existed before, and those passed through from outside. *)
Inductive error : Type :=
| errors_New (msg : string)
| Foreign (e : E).

Definition Error (msg_of : E -> string) (err : error) : string :=
  match err with
  | errors_New msg => msg
  | Foreign e => msg_of e
  end.

Definition errors_Is_DeadlineExceeded (err : error) : bool :=
  match err with
  | errors_New _ => false
  | Foreign e => is_DeadlineExceeded e
  end.

(** Which case of the [select] was taken.  [CtxDone e] carries
    [e = ctx.Err()], non-nil once [ctx.Done()] is closed. *)
Inductive woke : Type :=
| TimerFired
| CtxDone (e : E).

(** The context: [ctx.Deadline()] ([None] when [ok] is false) and the
    race of [ctx.Done()] against [time.After(d)]. *)
Record Context : Type := {
  Deadline : option time_Time;
  select_After_Done : Duration -> W -> woke * W
}.

(** What a call returns, with the world it leaves and what it did. *)
Record result : Type := {
  ret_val : T;
  ret_err : option error;
  world : W;
  trace : list event
}.

Definition ret (v : T) (err : option error) (w : W) : result :=
  {| ret_val := v; ret_err := err; world := w; trace := [] |}.

Definition emit (ev : event) (r : result) : result :=
  {| ret_val := ret_val r; ret_err := ret_err r; world := world r;
     trace := ev :: trace r |}.

Variable ctx : Context.
Variable maxRetries : uint.
Variable baseBackoff : Duration.

(** The operation: a result, an error ([None] is nil) and the new world. *)
Variable fn : W -> T * option E * W.

(** The branch [case <-ctx.Done()]. *)
Definition on_Done (d : Duration) (e : E) (w : W) : result :=
  emit (EvDone d)
    (emit (EvLog (if is_DeadlineExceeded e
                  then "deadline exceeded"
                  else "canceled or timeout")%string)
       (ret zero (Some (Foreign e)) w)).

(** The [for] loop from its test [attempt <= maxRetries] on; falling out
    of the loop reaches the last [return]. *)
Equations? loop (attempt : uint) (w : W) : result
  by wf (Z.to_nat (uint_val maxRetries - uint_val attempt)) lt :=
loop attempt w with inspect (uint_val attempt <=? uint_val maxRetries) := {
  | exist _ false _ =>
      ret zero (Some (errors_New "exponential retry failed")) w
  | exist _ true Hle with fn w := {
    | (result, None, w1) => emit EvCall (ret result None w1)
    | (_, Some err, w1)
        with inspect (uint_val attempt =? uint_val maxRetries) := {
      | exist _ true _ => emit EvCall (ret zero (Some (Foreign err)) w1)
      | exist _ false Hne
          with select_After_Done ctx (backoff_of baseBackoff attempt) w1 := {
        | (TimerFired, w2) =>
            emit EvCall
              (emit (EvTimer (backoff_of baseBackoff attempt))
                 (loop (uint_incr attempt) w2))
        | (CtxDone e, w2) =>
            emit EvCall (on_Done (backoff_of baseBackoff attempt) e w2)
        }
      }
    }
  }.
Proof.
  apply Z.leb_le in Hle. apply Z.eqb_neq in Hne.
  pose proof (uint_ok maxRetries) as Hm.
  pose proof (uint_ok attempt) as Ha.
  unfold in_uint, uint_modulus in Hm, Ha.
  apply andb_prop in Hm, Ha.
  destruct Hm as [_ Hm]. destruct Ha as [Ha _].
  apply Z.ltb_lt in Hm. apply Z.leb_le in Ha.
  cbn. unfold uint_wrap, uint_modulus.
  rewrite Z.mod_small by lia. lia.
Qed.

Definition ExponentialRetry (w : W) : result :=
  match Deadline ctx with
  | None => ret zero (Some (errors_New "no deadline set by caller")) w
  | Some _ => loop (uint_of_Z 0) w
  end.

(** [k] rounds that all go the same way: the operation fails and the timer
    wins the race against [ctx.Done()].  From attempt [a] in world [w] they
    lead to [Some (a', w')], the attempt and the world reached; [None] when
    one of the [k] rounds goes another way.  This speaks of the operation
    and of the context only, not of the loop. *)
Fixpoint retries (k : nat) (a : uint) (w : W) : option (uint * W) :=
  match k with
  | O => Some (a, w)
  | S k' =>
      match fn w with
      | (_, Some _, w1) =>
          match select_After_Done ctx (backoff_of baseBackoff a) w1 with
          | (TimerFired, w2) => retries k' (uint_incr a) w2
          | (CtxDone _, _) => None
          end
      | (_, None, _) => None
      end
  end.

(** The events of [k] such rounds from attempt [a] on. *)
Fixpoint rounds (a : uint) (k : nat) : list event :=
  match k with
  | O => []
  | S k' => EvCall :: EvTimer (backoff_of baseBackoff a)
              :: rounds (uint_incr a) k'
  end.

(** [r] with the events [tr] in front of its own. *)
Definition after (tr : list event) (r : result) : result :=
  {| ret_val := ret_val r; ret_err := ret_err r; world := world r;
     trace := tr ++ trace r |}.

End ExponentialRetry.

End Retry.

(** ** roundtrip/roundtrip.go *)

Module RoundTrip.

(** The package's own error values. *)
Inductive error : Type :=
| errors_New (msg : string).

Definition ErrNoMockResponse : error :=
  errors_New "no mock response available".

(** A call either returns or panics (an index out of range). *)
Inductive outcome (A : Type) : Type :=
| Returns (a : A)
| Panics (msg : string).
Arguments Returns {A} a.
Arguments Panics {A} msg.

(** What [t.Errorf(format, arg)] leaves in a [*testing.T]: the format and
    its argument, oldest first. *)
Definition testing_T : Type := list (string * Z).

Section TestingRoundTripper.

(** [http.Response] and [http.Request] are opaque to the transport; a
    pointer to one is [None] when nil. *)
Context {Response Request : Type}.

Record TestingRoundTripper : Type := {
  responses : list (option Response);
  index : Z;
  t : option testing_T
}.

(** [&TestingRoundTripper{}]. *)
Definition zero_value : TestingRoundTripper :=
  {| responses := []; index := 0; t := None |}.

Definition WithTest (srt : TestingRoundTripper) (t' : option testing_T)
  : TestingRoundTripper :=
  {| responses := responses srt; index := index srt; t := t' |}.

Definition WithMockResponses (srt : TestingRoundTripper)
  (rs : list (option Response)) : TestingRoundTripper :=
  {| responses := rs; index := index srt; t := t srt |}.

Definition AddMockResponse (srt : TestingRoundTripper)
  (response : option Response) : TestingRoundTripper :=
  {| responses := responses srt ++ [response]; index := index srt;
     t := t srt |}.

(** [len(s)]. *)
Definition len {A : Type} (s : list A) : Z := Z.of_nat (List.length s).

(** [s[i]], which panics out of range. *)
Definition at_index {A : Type} (s : list A) (i : Z) : option A :=
  if (i <? 0) || (len s <=? i) then None else nth_error s (Z.to_nat i).

(** [t.Errorf(...)] when [t] is not nil. *)
Definition Errorf (t0 : option testing_T) (format : string) (arg : Z)
  : option testing_T :=
  match t0 with
  | None => None
  | Some log => Some (log ++ [(format, arg)])
  end.

Definition RoundTrip (srt : TestingRoundTripper) (_ : option Request)
  : outcome (option Response * option error * TestingRoundTripper) :=
  if len (responses srt) <=? index srt then
    Returns (None, Some ErrNoMockResponse,
             WithTest srt
               (Errorf (t srt) "no mock response for request at index %d"
                  (index srt)))
  else
    match at_index (responses srt) (index srt) with
    | None => Panics "index out of range"
    | Some resp =>
        Returns (resp, None,
                 {| responses := responses srt;
                    index := int64_wrap (index srt + 1);
                    t := t srt |})
    end.

(** The calls of a client, one request after the other; what each call
    returned, in order, and the transport at the end. *)
Fixpoint RoundTrips (srt : TestingRoundTripper) (reqs : list (option Request))
  : outcome (list (option Response * option error) * TestingRoundTripper) :=
  match reqs with
  | [] => Returns ([], srt)
  | req :: reqs' =>
      match RoundTrip srt req with
      | Panics msg => Panics msg
      | Returns (resp, err, srt') =>
          match RoundTrips srt' reqs' with
          | Panics msg => Panics msg
          | Returns (outs, srt'') => Returns ((resp, err) :: outs, srt'')
          end
      end
  end.

(** What the [k]-th call is to return when the responses [rs] are replayed
    from the start. *)
Definition replayed (rs : list (option Response)) (k : nat)
  : option Response * option error :=
  match nth_error rs k with
  | Some resp => (resp, None)
  | None => (None, Some ErrNoMockResponse)
  end.

(** What the users of the package can do with a transport. *)
Inductive call : Type :=
| CallWithTest (t' : option testing_T)
| CallWithMockResponses (rs : list (option Response))
| CallAddMockResponse (response : option Response)
| CallRoundTrip (req : option Request).

(** Any such uses, one after the other, on the same transport. *)
Fixpoint calls (srt : TestingRoundTripper) (cs : list call)
  : outcome TestingRoundTripper :=
  match cs with
  | [] => Returns srt
  | CallWithTest t' :: cs' => calls (WithTest srt t') cs'
  | CallWithMockResponses rs :: cs' => calls (WithMockResponses srt rs) cs'
  | CallAddMockResponse response :: cs' =>
      calls (AddMockResponse srt response) cs'
  | CallRoundTrip req :: cs' =>
      match RoundTrip srt req with
      | Panics msg => Panics msg
      | Returns (_, _, srt') => calls srt' cs'
      end
  end.

End TestingRoundTripper.

End RoundTrip.

(** ** roundtrip/roundtrip_test.go: the builders of mock responses *)

Module MockResponse.

Section Options.

(** [http.StatusText] belongs to net/http, not to this repository: the
    builders are taken for any such table. *)
Variable StatusText : Z -> string.

(** [*http.Request], nil in every response built here. *)
Context {Request : Type}.

(** The fields of [http.Response] that the builders set.  [Body] is what
    is left to read from [io.NopCloser(bytes.NewReader(body))]; [Header] is
    the map as a list of its entries. *)
Record Response : Type := {
  StatusCode : Z;
  Status : string;
  Body : list Byte.byte;
  Header : list (string * list string);
  ContentLength : Z;
  Request_ : option Request
}.

(** [fmt.Sprintf("%d %s", n, s)]. *)
Definition Sprintf_d_s (n : Z) (s : string) : string :=
  (DecimalString.NilZero.string_of_int (Z.to_int n) ++ " " ++ s)%string.

Definition WithStatus (status : Z) (r : Response) : Response :=
  {| StatusCode := status;
     Status := Sprintf_d_s status (StatusText status);
     Body := Body r;
     Header := Header r;
     ContentLength := ContentLength r;
     Request_ := Request_ r |}.

Definition WithBody (body : list Byte.byte) (r : Response) : Response :=
  {| StatusCode := StatusCode r;
     Status := Status r;
     Body := body;
     Header := Header r;
     ContentLength := Z.of_nat (List.length body);
     Request_ := Request_ r |}.

Definition newMockResponse (opts : list (Response -> Response)) : Response :=
  fold_left (fun resp o => o resp) opts
    {| StatusCode := 200;
       Status := Sprintf_d_s 200 (StatusText 200);
       Body := [];
       Header := [];
       ContentLength := 0;
       Request_ := None |}.

(** A response in which the fields that go in pairs agree. *)
Definition coherent (r : Response) : Prop :=
  Status r = Sprintf_d_s (StatusCode r) (StatusText (StatusCode r)) /\
  ContentLength r = Z.of_nat (List.length (Body r)).

End Options.

End MockResponse.

(** ** Concrete worlds

    A world with a clock, used to run the functions on closed inputs.  The
    operation takes one millisecond and follows a script indexed by the
    number of calls made so far; a timer of [d] nanoseconds wins the race
    when it expires before the deadline. *)

Module Scenario.

Import Retry.

Inductive go_error : Type :=
| context_DeadlineExceeded
| context_Canceled
| errorString (msg : string).

Definition is_DeadlineExceeded (e : go_error) : bool :=
  match e with context_DeadlineExceeded => true | _ => false end.

Record clock_world : Type := {
  now : Z;
  called : nat
}.

Definition millisecond : Duration := 1000000.
Definition second : Duration := 1000 * millisecond.

Definition start : clock_world := {| now := 0; called := 0 |}.

(** [context.WithTimeout(context.Background(), timeout)] taken at time 0. *)
Definition WithTimeout (timeout : Duration) : @Context go_error clock_world :=
  {| Deadline := Some timeout;
     select_After_Done := fun d w =>
       if now w + Z.max d 0 <? timeout
       then (TimerFired, {| now := now w + Z.max d 0; called := called w |})
       else (CtxDone context_DeadlineExceeded,
             {| now := Z.max (now w) timeout; called := called w |}) |}.

(** [context.Background()]: no deadline, never done. *)
Definition Background : @Context go_error clock_world :=
  {| Deadline := None;
     select_After_Done := fun d w =>
       (TimerFired, {| now := now w + Z.max d 0; called := called w |}) |}.

(** A context with a deadline that is never reached while the call waits:
    every timer wins its race. *)
Definition Unhurried (deadline : time_Time) : @Context go_error clock_world :=
  {| Deadline := Some deadline;
     select_After_Done := fun d w =>
       (TimerFired, {| now := now w + Z.max d 0; called := called w |}) |}.

Definition scripted (script : nat -> Z * option go_error) (w : clock_world)
  : Z * option go_error * clock_world :=
  (script (called w),
   {| now := now w + millisecond; called := S (called w) |}).

(** Always fails with "boom", handing back a non-zero value with it. *)
Definition always_boom : clock_world -> Z * option go_error * clock_world :=
  scripted (fun _ => (13, Some (errorString "boom"))).

(** Fails twice, then succeeds with 7. *)
Definition third_time_lucky : clock_world -> Z * option go_error * clock_world :=
  scripted (fun n => if (n <? 2)%nat
                     then (0, Some (errorString "fail"))
                     else (7, None)).

Definition run (ctx : @Context go_error clock_world) (maxRetries : Z)
  (baseBackoff : Duration)
  (fn : clock_world -> Z * option go_error * clock_world) : result :=
  ExponentialRetry 0 is_DeadlineExceeded ctx (uint_of_Z maxRetries)
    baseBackoff fn start.

(** Scenario A: three retries of an operation that always fails. *)
Definition scenario_A : result :=
  run (WithTimeout second) 3 (10 * millisecond) always_boom.

(** Scenario B: two failures, then 7. *)
Definition scenario_B : result :=
  run (WithTimeout second) 5 (5 * millisecond) third_time_lucky.

(** Scenario C: the deadline of 10ms passes during the first wait of
    100ms. *)
Definition scenario_C : result :=
  run (WithTimeout (10 * millisecond)) 5 (100 * millisecond) always_boom.

(** Scenario D: no deadline. *)
Definition scenario_D : result :=
  run Background 2 millisecond third_time_lucky.

(** A base backoff of [2^62] nanoseconds under the longest timeout there
    is: the second backoff, [2^62 * 2], does not fit [int64]. *)
Definition scenario_overflow : result :=
  run (WithTimeout int64_max) 2 (2 ^ 62) always_boom.

(** No retry at all: one attempt and nothing else. *)
Definition scenario_single : result :=
  run (WithTimeout second) 0 (10 * millisecond) always_boom.

(** Sixty-six attempts one nanosecond apart at first: the shift count
    reaches 64. *)
Definition scenario_long : result :=
  run (Unhurried second) 65 1 always_boom.

(** The token refresh of the transport's own test: an expired token, the
    refresh, the retried request. *)
Record http_Response : Type := {
  StatusCode : Z;
  Body : string
}.

Record http_Request : Type := {
  Method : string;
  URL : string
}.

Definition token_expired : http_Response :=
  {| StatusCode := 401; Body := "token expired" |}.
Definition token_refreshed : http_Response :=
  {| StatusCode := 200; Body := "{access_token:newtok}" |}.
Definition welcome : http_Response :=
  {| StatusCode := 200; Body := "welcome" |}.

Definition get_protected : option http_Request :=
  Some {| Method := "GET"; URL := "https://example.com/protected" |}.
Definition post_refresh : option http_Request :=
  Some {| Method := "POST"; URL := "https://example.com/refresh" |}.

Definition token_refresh : @RoundTrip.TestingRoundTripper http_Response :=
  RoundTrip.WithMockResponses RoundTrip.zero_value
    [Some token_expired; Some token_refreshed; Some welcome].

(** The same transport with a test handle that has seen nothing yet. *)
Definition watched : @RoundTrip.TestingRoundTripper http_Response :=
  RoundTrip.WithTest token_refresh (Some []).

(** The transport after two of its three responses were served. *)
Definition two_served : @RoundTrip.TestingRoundTripper http_Response :=
  {| RoundTrip.responses := RoundTrip.responses token_refresh;
     RoundTrip.index := 2;
     RoundTrip.t := None |}.

(** A transport put to all its uses. *)
Definition busy : list (@RoundTrip.call http_Response http_Request) :=
  [RoundTrip.CallAddMockResponse (Some welcome);
   RoundTrip.CallRoundTrip get_protected;
   RoundTrip.CallRoundTrip post_refresh;
   RoundTrip.CallWithTest (Some []);
   RoundTrip.CallWithMockResponses [];
   RoundTrip.CallRoundTrip get_protected].

(** An excerpt of the table of [http.StatusText]. *)
Definition StatusText (code : Z) : string :=
  if code =? 200 then "OK"
  else if code =? 401 then "Unauthorized"
  else "".

(** [newMockResponse(WithStatus(401), WithBody([]byte("token expired")))]
    of the transport's test. *)
Definition expired_options
  : list (@MockResponse.Response http_Request
          -> @MockResponse.Response http_Request) :=
  [MockResponse.WithStatus StatusText 401;
   MockResponse.WithBody (list_byte_of_string "token expired")].

End Scenario.

(** * Theorems *)

Module GoIntFacts.

Lemma uint_val_range (a : uint) : 0 <= uint_val a < 2 ^ 64.
Proof.
  pose proof (uint_ok a) as H. unfold in_uint, uint_modulus in H.
  apply andb_prop in H. destruct H as [H1 H2].
  apply Z.leb_le in H1. apply Z.ltb_lt in H2. lia.
Qed.

Lemma uint_of_Z_val (z : Z) : 0 <= z < 2 ^ 64 -> uint_val (uint_of_Z z) = z.
Proof.
  intros H. cbn. unfold uint_wrap, uint_modulus. apply Z.mod_small. lia.
Qed.

(** [a++] does not wrap below a bound that is itself a [uint]. *)
Lemma uint_incr_val (a b : uint) :
  uint_val a < uint_val b -> uint_val (uint_incr a) = uint_val a + 1.
Proof.
  intros H. unfold uint_incr. apply uint_of_Z_val.
  pose proof (uint_val_range a). pose proof (uint_val_range b). lia.
Qed.

Lemma int64_wrap_small (z : Z) : in_int64 z -> int64_wrap z = z.
Proof.
  unfold in_int64, int64_min, int64_max, int64_wrap. intros H.
  rewrite Z.mod_small by lia. lia.
Qed.

Lemma int64_wrap_range (z : Z) : in_int64 (int64_wrap z).
Proof.
  unfold in_int64, int64_min, int64_max, int64_wrap.
  pose proof (Z.mod_pos_bound (z + 2 ^ 63) (2 ^ 64) ltac:(lia)). lia.
Qed.

(** Wrapping keeps the residue modulo [2^64]. *)
Lemma int64_wrap_mod (z : Z) : int64_wrap z mod 2 ^ 64 = z mod 2 ^ 64.
Proof.
  unfold int64_wrap.
  rewrite Zminus_mod_idemp_l.
  f_equal. lia.
Qed.

Lemma int64_wrap_congr (x y : Z) :
  x mod 2 ^ 64 = y mod 2 ^ 64 -> int64_wrap x = int64_wrap y.
Proof.
  intros H. unfold int64_wrap.
  rewrite <- (Zplus_mod_idemp_l x), <- (Zplus_mod_idemp_l y), H.
  reflexivity.
Qed.

Lemma int64_mul_wrap_r (a b : Z) : int64_mul a (int64_wrap b) = int64_mul a b.
Proof.
  unfold int64_mul. apply int64_wrap_congr.
  rewrite <- Zmult_mod_idemp_r, int64_wrap_mod, Zmult_mod_idemp_r.
  reflexivity.
Qed.

(** [1 << n] at [int64] is [2^n] wrapped, also for counts of 64 and more. *)
Lemma int64_shl_1 (n : uint) : int64_shl 1 n = int64_wrap (2 ^ uint_val n).
Proof.
  pose proof (uint_val_range n) as Hn.
  unfold int64_shl. destruct (64 <=? uint_val n) eqn:Hc.
  - apply Z.leb_le in Hc.
    replace (2 ^ uint_val n) with (2 ^ (uint_val n - 64) * 2 ^ 64)
      by (rewrite <- Z.pow_add_r by lia; f_equal; lia).
    unfold int64_wrap. rewrite Z.add_comm, Z_mod_plus_full.
    reflexivity.
  - rewrite Z.shiftl_1_l. reflexivity.
Qed.

End GoIntFacts.

Module RetrySpec.

Import Retry GoIntFacts.

Lemma invocations_cons_call (tr : list event) :
  invocations (EvCall :: tr) = 1 + invocations tr.
Proof.
  unfold invocations. change (filter is_call (EvCall :: tr))
    with (EvCall :: filter is_call tr).
  cbn [List.length]. rewrite Nat2Z.inj_succ. lia.
Qed.

Lemma invocations_cons_other (ev : event) (tr : list event) :
  is_call ev = false -> invocations (ev :: tr) = invocations tr.
Proof. intros H. unfold invocations. cbn [filter]. rewrite H. reflexivity. Qed.

Lemma invocations_nonneg (tr : list event) : 0 <= invocations tr.
Proof. unfold invocations. lia. Qed.

(** The backoff of attempt [a] is [baseBackoff * 2^a] reduced to [int64]. *)
Lemma backoff_of_wrap (baseBackoff : Duration) (a : uint) :
  backoff_of baseBackoff a = int64_wrap (baseBackoff * 2 ^ uint_val a).
Proof.
  unfold backoff_of. rewrite int64_shl_1, int64_mul_wrap_r. reflexivity.
Qed.

Section Loop.

Context {T E W : Type}.
Variable zero : T.
Variable is_DeadlineExceeded : E -> bool.
Variable ctx : @Context E W.
Variable maxRetries : uint.
Variable baseBackoff : Duration.
Variable fn : W -> T * option E * W.

Local Abbreviation loop :=
  (loop zero is_DeadlineExceeded ctx maxRetries baseBackoff fn).
Local Abbreviation ExponentialRetry :=
  (ExponentialRetry zero is_DeadlineExceeded ctx maxRetries baseBackoff fn).
Local Abbreviation retries := (retries ctx baseBackoff fn).
Local Abbreviation rounds := (rounds baseBackoff).
Local Abbreviation on_Done := (on_Done zero is_DeadlineExceeded).
Local Abbreviation backoff := (backoff_of baseBackoff).

(** *** The loop, one iteration at a time *)

Lemma loop_body (attempt : uint) (w : W) :
  loop attempt w =
  if uint_val attempt <=? uint_val maxRetries then
    match fn w with
    | (result, None, w1) => emit EvCall (ret result None w1)
    | (_, Some err, w1) =>
        if uint_val attempt =? uint_val maxRetries
        then emit EvCall (ret zero (Some (Foreign err)) w1)
        else
          match select_After_Done ctx (backoff attempt) w1 with
          | (TimerFired, w2) =>
              emit EvCall
                (emit (EvTimer (backoff attempt))
                   (loop (uint_incr attempt) w2))
          | (CtxDone e, w2) => emit EvCall (on_Done (backoff attempt) e w2)
          end
    end
  else ret zero (Some (errors_New "exponential retry failed")) w.
Proof.
  funelim (loop attempt w);
    repeat match goal with
      | H : (_ <=? _) = _ |- _ => rewrite H
      | H : (_ =? _) = _ |- _ => rewrite H
      | H : fn _ = _ |- _ => rewrite H
      | H : select_After_Done _ _ _ = _ |- _ => rewrite H
      end; reflexivity.
Qed.

(** Induction up to [maxRetries]: the step from [a] may use [a + 1] when
    [a] is not the last attempt. *)
Lemma attempts_ind (P : uint -> Prop) :
  (forall a : uint,
     uint_val a <= uint_val maxRetries ->
     (uint_val a < uint_val maxRetries -> P (uint_incr a)) -> P a) ->
  forall a : uint, uint_val a <= uint_val maxRetries -> P a.
Proof.
  intros step a.
  remember (Z.to_nat (uint_val maxRetries - uint_val a)) as n eqn:Hn.
  revert a Hn.
  induction n as [|n IH]; intros a Hn Ha; apply step; trivial; intros Hlt.
  - lia.
  - apply IH; rewrite (uint_incr_val a maxRetries Hlt); lia.
Qed.

(** Start a proof by [attempts_ind] on the attempt [a], for every world. *)
Ltac by_attempts a w Ha IH :=
  intros Ha; revert w; pattern a; apply attempts_ind; [ | exact Ha ];
  clear a Ha; intros a Ha IH.

(** Case analysis on one iteration that passed the loop test. *)
Ltac iteration a w :=
  rewrite (loop_body a w);
  let Hle := fresh "Hle" in
  destruct (uint_val a <=? uint_val maxRetries) eqn:Hle;
  [ clear Hle | apply Z.leb_gt in Hle; lia ];
  let v := fresh "v" in let e := fresh "e" in let w1 := fresh "w1" in
  let Hfn := fresh "Hfn" in
  destruct (fn w) as [[v [e|]] w1] eqn:Hfn;
  [ let Hlast := fresh "Hlast" in
    destruct (uint_val a =? uint_val maxRetries) eqn:Hlast;
    [ apply Z.eqb_eq in Hlast
    | apply Z.eqb_neq in Hlast;
      let ce := fresh "ce" in let w2 := fresh "w2" in
      let Hsel := fresh "Hsel" in
      destruct (select_After_Done ctx (backoff a) w1) as [[|ce] w2] eqn:Hsel ]
  | ].

Lemma loop_never_falls_through (a : uint) (w : W) :
  uint_val a <= uint_val maxRetries ->
  ret_err (loop a w) <> Some (errors_New "exponential retry failed").
Proof.
  by_attempts a w Ha IH.
  intros w. iteration a w; cbn; try discriminate.
  apply IH. lia.
Qed.

Lemma loop_invocations (a : uint) (w : W) :
  uint_val a <= uint_val maxRetries ->
  1 <= invocations (trace (loop a w))
    <= uint_val maxRetries - uint_val a + 1.
Proof.
  by_attempts a w Ha IH.
  intros w. iteration a w; cbn [trace emit ret on_Done];
    rewrite invocations_cons_call;
    repeat (rewrite invocations_cons_other by reflexivity);
    try (change (invocations []) with 0; lia).
  assert (Hlt : uint_val a < uint_val maxRetries) by lia.
  specialize (IH Hlt w2).
  rewrite (uint_incr_val a maxRetries Hlt) in IH. lia.
Qed.

Lemma loop_zero_on_error (a : uint) (w : W) :
  uint_val a <= uint_val maxRetries ->
  ret_err (loop a w) <> None -> ret_val (loop a w) = zero.
Proof.
  by_attempts a w Ha IH.
  intros w. iteration a w; cbn; try reflexivity; try congruence.
  apply IH. lia.
Qed.

(** The [i]-th wait from attempt [a] on is the one of attempt [a + i], and
    that attempt is not the last. *)
Lemma loop_waits (a : uint) (w : W) :
  uint_val a <= uint_val maxRetries ->
  forall (i : nat) (d : Duration),
    nth_error (waits (trace (loop a w))) i = Some d ->
    uint_val a + Z.of_nat i < uint_val maxRetries /\
    d = backoff (uint_of_Z (uint_val a + Z.of_nat i)).
Proof.
  by_attempts a w Ha IH.
  assert (Hval : backoff (uint_of_Z (uint_val a)) = backoff a).
  { unfold backoff_of. rewrite !int64_shl_1.
    rewrite uint_of_Z_val by apply uint_val_range. reflexivity. }
  intros w i d. iteration a w; cbn [trace emit ret on_Done waits].
  - destruct i; discriminate.
  - assert (Hlt : uint_val a < uint_val maxRetries) by lia.
    destruct i as [|i]; cbn [nth_error].
    + intros [= <-]. rewrite Z.add_0_r, Hval. split; [lia | reflexivity].
    + intros Hd. destruct (IH Hlt w2 i d Hd) as [Hi Hd'].
      rewrite (uint_incr_val a maxRetries Hlt) in Hi, Hd'.
      split; [lia |].
      rewrite Hd'. do 2 f_equal. lia.
  - destruct i as [|[|i]]; cbn [nth_error]; try discriminate.
    intros [= <-]. rewrite Z.add_0_r, Hval. split; [lia | reflexivity].
  - destruct i; discriminate.
Qed.

(** *** Runs of failed attempts *)

Lemma invocations_rounds (a : uint) (k : nat) (tr : list event) :
  invocations (rounds a k ++ tr) = Z.of_nat k + invocations tr.
Proof.
  revert a. induction k as [|k IH]; intros a; cbn [Retry.rounds app].
  - lia.
  - rewrite invocations_cons_call, invocations_cons_other by reflexivity.
    rewrite IH. lia.
Qed.

Lemma waits_rounds (a : uint) (k : nat) (tr : list event) :
  List.length (waits (rounds a k ++ tr)) = (k + List.length (waits tr))%nat.
Proof.
  revert a. induction k as [|k IH]; intros a; cbn [Retry.rounds app waits].
  - reflexivity.
  - cbn [List.length]. rewrite IH. reflexivity.
Qed.

Lemma after_nil (r : @result T E W) : after [] r = r.
Proof. destruct r. reflexivity. Qed.

(** [k] rounds of failure and timer lead the loop from [(a, w)] to
    [(a', w')] and leave their events behind. *)
Lemma loop_retries (k : nat) (a : uint) (w : W) (a' : uint) (w' : W) :
  retries k a w = Some (a', w') ->
  uint_val a + Z.of_nat k <= uint_val maxRetries ->
  uint_val a' = uint_val a + Z.of_nat k /\
  loop a w = after (rounds a k) (loop a' w').
Proof.
  revert a w. induction k as [|k IH]; intros a w; cbn [Retry.retries].
  - intros [= <- <-] _. split; [lia | symmetry; apply after_nil].
  - destruct (fn w) as [[v [e|]] w1] eqn:Hfn; try discriminate.
    destruct (select_After_Done ctx (backoff a) w1) as [[|ce] w2] eqn:Hsel;
      try discriminate.
    intros Hrest Hk.
    assert (Hlt : uint_val a < uint_val maxRetries) by lia.
    specialize (IH (uint_incr a) w2 Hrest).
    rewrite (uint_incr_val a maxRetries Hlt) in IH.
    destruct IH as [Ha' IH]; [lia |].
    split; [lia |].
    rewrite (loop_body a w), Hfn, Hsel, IH.
    replace (uint_val a <=? uint_val maxRetries) with true
      by (symmetry; apply Z.leb_le; lia).
    replace (uint_val a =? uint_val maxRetries) with false
      by (symmetry; apply Z.eqb_neq; lia).
    reflexivity.
Qed.

Lemma loop_success (a : uint) (w : W) (v : T) (w1 : W) :
  uint_val a <= uint_val maxRetries ->
  fn w = (v, None, w1) ->
  loop a w = emit EvCall (ret v None w1).
Proof.
  intros Ha Hfn. rewrite (loop_body a w), Hfn.
  replace (uint_val a <=? uint_val maxRetries) with true
    by (symmetry; apply Z.leb_le; lia).
  reflexivity.
Qed.

Lemma loop_last_failure (a : uint) (w : W) (v : T) (e : E) (w1 : W) :
  uint_val a = uint_val maxRetries ->
  fn w = (v, Some e, w1) ->
  loop a w = emit EvCall (ret zero (Some (Foreign e)) w1).
Proof.
  intros Ha Hfn. rewrite (loop_body a w), Hfn, Ha, Z.leb_refl, Z.eqb_refl.
  reflexivity.
Qed.

Lemma loop_cancelled (a : uint) (w : W) (v : T) (e ce : E) (w1 w2 : W) :
  uint_val a < uint_val maxRetries ->
  fn w = (v, Some e, w1) ->
  select_After_Done ctx (backoff a) w1 = (CtxDone ce, w2) ->
  loop a w = emit EvCall (on_Done (backoff a) ce w2).
Proof.
  intros Ha Hfn Hsel. rewrite (loop_body a w), Hfn, Hsel.
  replace (uint_val a <=? uint_val maxRetries) with true
    by (symmetry; apply Z.leb_le; lia).
  replace (uint_val a =? uint_val maxRetries) with false
    by (symmetry; apply Z.eqb_neq; lia).
  reflexivity.
Qed.

(** With a deadline the function is its loop, entered at attempt 0. *)
Lemma with_deadline (d : time_Time) (w : W) :
  Deadline ctx = Some d -> ExponentialRetry w = loop (uint_of_Z 0) w.
Proof. intros Hd. unfold Retry.ExponentialRetry. rewrite Hd. reflexivity. Qed.

Lemma zero_le_maxRetries : uint_val (uint_of_Z 0) <= uint_val maxRetries.
Proof. pose proof (uint_val_range maxRetries). cbn. lia. Qed.

(** The whole budget spent on failures: [maxRetries] rounds, then one more
    failed invocation. *)
Lemma run_exhausted (d : time_Time) (w : W) (a' : uint) (wk : W)
  (v : T) (e : E) (wk' : W) :
  Deadline ctx = Some d ->
  retries (Z.to_nat (uint_val maxRetries)) (uint_of_Z 0) w = Some (a', wk) ->
  fn wk = (v, Some e, wk') ->
  ExponentialRetry w =
  after (rounds (uint_of_Z 0) (Z.to_nat (uint_val maxRetries)))
    (emit EvCall (ret zero (Some (Foreign e)) wk')).
Proof.
  intros Hd Hrun Hfn. pose proof (uint_val_range maxRetries) as Hm.
  rewrite (with_deadline d w Hd).
  apply loop_retries in Hrun; [| cbn; lia].
  destruct Hrun as [Ha' ->].
  rewrite (loop_last_failure a' wk v e wk'); trivial.
  rewrite Ha'. cbn. lia.
Qed.

(** When the operation never succeeds and the timer always wins, any number
    of rounds can be run from anywhere. *)
Lemma always_retries (boom : E) :
  (forall (d : Duration) (w : W), fst (select_After_Done ctx d w) = TimerFired) ->
  (forall w : W, snd (fst (fn w)) = Some boom) ->
  forall (k : nat) (a : uint) (w : W),
    exists (a' : uint) (w' : W), retries k a w = Some (a', w').
Proof.
  intros Htimer Hfail. induction k as [|k IH]; intros a w; cbn [Retry.retries].
  - exists a, w. reflexivity.
  - specialize (Hfail w). specialize (Htimer (backoff a)).
    destruct (fn w) as [[v oe] w1] eqn:Hfn. cbn in Hfail. subst oe.
    specialize (Htimer w1).
    destruct (select_After_Done ctx (backoff a) w1) as [wk w2] eqn:Hsel.
    cbn in Htimer. subst wk.
    apply IH.
Qed.

(** *** The properties of [ExponentialRetry] *)

(** C1. When the context carries no deadline, [ExponentialRetry] returns
    the zero value with the error made by
    [errors.New("no deadline set by caller")], whatever [maxRetries],
    [baseBackoff] and the operation are; the operation is not invoked
    (no event at all is produced and the world is left as it was). *)
Theorem no_deadline_fails_fast (w : W) :
  Deadline ctx = None ->
  ExponentialRetry w =
    {| ret_val := zero;
       ret_err := Some (errors_New "no deadline set by caller");
       world := w;
       trace := [] |} /\
  invocations (trace (ExponentialRetry w)) = 0 /\
  forall msg_of : E -> string,
    option_map (Error msg_of) (ret_err (ExponentialRetry w)) =
    Some "no deadline set by caller"%string.
Proof.
  intros Hd. unfold Retry.ExponentialRetry. rewrite Hd.
  repeat split.
Qed.

(** C2. With a deadline on the context, one call of [ExponentialRetry]
    invokes the operation at most [maxRetries + 1] times, however the call
    ends. *)
Theorem at_most_maxRetries_plus_one_invocations (d : time_Time) (w : W) :
  Deadline ctx = Some d ->
  invocations (trace (ExponentialRetry w)) <= uint_val maxRetries + 1.
Proof.
  intros Hd. rewrite (with_deadline d w Hd).
  pose proof (loop_invocations (uint_of_Z 0) w zero_le_maxRetries) as H.
  cbn in H. cbn. lia.
Qed.

(** C3. With a deadline on the context, when the first [k] invocations fail
    (each followed by a backoff wait that its timer ends) and invocation
    [k], with [k <= maxRetries], succeeds with [v]: the call returns [v]
    and a nil error, after exactly [k + 1] invocations and [k] waits; the
    last event of the call is the successful invocation, no wait follows
    it. *)
Theorem first_success_is_returned (d : time_Time) (w : W) (k : nat)
  (a' : uint) (wk : W) (v : T) (wk' : W) :
  Deadline ctx = Some d ->
  Z.of_nat k <= uint_val maxRetries ->
  retries k (uint_of_Z 0) w = Some (a', wk) ->
  fn wk = (v, None, wk') ->
  let r := ExponentialRetry w in
  ret_val r = v /\
  ret_err r = None /\
  world r = wk' /\
  invocations (trace r) = Z.of_nat k + 1 /\
  List.length (waits (trace r)) = k /\
  trace r = rounds (uint_of_Z 0) k ++ [EvCall].
Proof.
  intros Hd Hk Hrun Hfn r. subst r.
  rewrite (with_deadline d w Hd).
  apply loop_retries in Hrun; [| cbn; lia].
  destruct Hrun as [Ha' ->].
  rewrite (loop_success a' wk v wk') by (trivial; rewrite Ha'; cbn; lia).
  cbn [after emit ret ret_val ret_err world trace].
  rewrite invocations_rounds, waits_rounds.
  repeat split; cbn; lia.
Qed.

(** C4. With a deadline on the context, when every invocation from 0
    through [maxRetries] fails and every backoff wait is ended by its timer
    (no cancellation), the call returns the very error [e] of the last,
    [maxRetries]-th, invocation: not an error of its own making. *)
Theorem exhaustion_returns_last_error (d : time_Time) (w : W)
  (a' : uint) (wk : W) (v : T) (e : E) (wk' : W) :
  Deadline ctx = Some d ->
  retries (Z.to_nat (uint_val maxRetries)) (uint_of_Z 0) w = Some (a', wk) ->
  fn wk = (v, Some e, wk') ->
  let r := ExponentialRetry w in
  ret_err r = Some (Foreign e) /\
  (forall msg : string, ret_err r <> Some (errors_New msg)) /\
  world r = wk' /\
  invocations (trace r) = uint_val maxRetries + 1.
Proof.
  intros Hd Hrun Hfn r. subst r.
  rewrite (run_exhausted d w a' wk v e wk' Hd Hrun Hfn).
  cbn [after emit ret ret_val ret_err world trace].
  rewrite invocations_rounds.
  pose proof (uint_val_range maxRetries).
  repeat split; try discriminate.
  rewrite Z2Nat.id by lia. reflexivity.
Qed.

(** C5. With a deadline on the context, when [k < maxRetries] rounds have
    failed, invocation [k] fails too with [e], and the wait that follows is
    ended by [ctx.Done()] with [ctx.Err() = ce]: the call returns the zero
    value and [ce] itself, which passes the deadline-exceeded test exactly
    when [ce] does; [e] is dropped; the operation has been invoked [k + 1]
    times and is not invoked again: after the cancelled wait the call only
    logs, and it leaves the world as the wait left it. *)
Theorem cancellation_during_backoff (d : time_Time) (w : W) (k : nat)
  (a' : uint) (wk : W) (v : T) (e ce : E) (w1 w2 : W) :
  Deadline ctx = Some d ->
  Z.of_nat k < uint_val maxRetries ->
  retries k (uint_of_Z 0) w = Some (a', wk) ->
  fn wk = (v, Some e, w1) ->
  select_After_Done ctx (backoff a') w1 = (CtxDone ce, w2) ->
  let r := ExponentialRetry w in
  ret_val r = zero /\
  ret_err r = Some (Foreign ce) /\
  option_map (errors_Is_DeadlineExceeded is_DeadlineExceeded) (ret_err r) =
    Some (is_DeadlineExceeded ce) /\
  world r = w2 /\
  invocations (trace r) = Z.of_nat k + 1 /\
  trace r =
    rounds (uint_of_Z 0) k ++
    [EvCall; EvDone (backoff a');
     EvLog (if is_DeadlineExceeded ce
            then "deadline exceeded" else "canceled or timeout")%string].
Proof.
  intros Hd Hk Hrun Hfn Hsel r. subst r.
  rewrite (with_deadline d w Hd).
  apply loop_retries in Hrun; [| cbn; lia].
  destruct Hrun as [Ha' ->].
  rewrite (loop_cancelled a' wk v e ce w1 w2)
    by (trivial; rewrite Ha'; cbn; lia).
  cbn [after emit ret Retry.on_Done ret_val ret_err world trace].
  rewrite invocations_rounds.
  repeat split; cbn; lia.
Qed.


(** C7. The [return] after the loop is never reached: whatever the
    context, [maxRetries], [baseBackoff], the operation and the world, the
    error returned is not the one made by
    [errors.New("exponential retry failed")]. *)
Theorem fallback_is_unreachable (w : W) :
  ret_err (ExponentialRetry w) <>
  Some (errors_New "exponential retry failed").
Proof.
  unfold Retry.ExponentialRetry. destruct (Deadline ctx) as [d|].
  - apply loop_never_falls_through, zero_le_maxRetries.
  - discriminate.
Qed.

(** C8. With [maxRetries = 3], a deadline on the context, waits that are
    always ended by their timer and an operation that always fails with the
    same error [boom], the call returns [boom] and has invoked the
    operation exactly 4 times. *)
Theorem always_boom_with_three_retries (d : time_Time) (boom : E) (w : W) :
  uint_val maxRetries = 3 ->
  Deadline ctx = Some d ->
  (forall (dur : Duration) (w' : W),
     fst (select_After_Done ctx dur w') = TimerFired) ->
  (forall w' : W, snd (fst (fn w')) = Some boom) ->
  ret_err (ExponentialRetry w) = Some (Foreign boom) /\
  invocations (trace (ExponentialRetry w)) = 4.
Proof.
  intros Hm Hd Htimer Hfail.
  destruct (always_retries boom Htimer Hfail
              (Z.to_nat (uint_val maxRetries)) (uint_of_Z 0) w)
    as (a' & wk & Hrun).
  pose proof (Hfail wk) as Hlast.
  destruct (fn wk) as [[v oe] wk'] eqn:Hfn. cbn in Hlast. subst oe.
  rewrite (run_exhausted d w a' wk v boom wk' Hd Hrun Hfn).
  cbn [after emit ret ret_err trace].
  rewrite invocations_rounds, Hm. split; reflexivity.
Qed.

(** C9. Whenever [ExponentialRetry] returns an error, the value returned
    with it is the zero value of [T]: what an earlier or the failing
    invocation handed back is not passed on. *)
Theorem error_comes_with_zero_value (w : W) :
  ret_err (ExponentialRetry w) <> None ->
  ret_val (ExponentialRetry w) = zero.
Proof.
  unfold Retry.ExponentialRetry. destruct (Deadline ctx) as [d|].
  - apply loop_zero_on_error, zero_le_maxRetries.
  - reflexivity.
Qed.

(** *** More on [ExponentialRetry]: how every call goes *)

(** From attempt [a] the loop runs some [k] rounds of failure and timer and
    then ends in one of three ways: a success, the failure of the last
    attempt, or a wait that [ctx.Done()] ends. *)
Lemma loop_classified (a : uint) (w : W) :
  uint_val a <= uint_val maxRetries ->
  exists (k : nat) (a' : uint) (wk : W),
    retries k a w = Some (a', wk) /\
    uint_val a' = uint_val a + Z.of_nat k /\
    uint_val a' <= uint_val maxRetries /\
    ((exists (v : T) (w' : W),
        fn wk = (v, None, w') /\
        loop a w = after (rounds a k) (emit EvCall (ret v None w'))) \/
     (exists (v : T) (e : E) (w' : W),
        uint_val a' = uint_val maxRetries /\
        fn wk = (v, Some e, w') /\
        loop a w =
        after (rounds a k) (emit EvCall (ret zero (Some (Foreign e)) w'))) \/
     (exists (v : T) (e : E) (w1 : W) (ce : E) (w2 : W),
        uint_val a' < uint_val maxRetries /\
        fn wk = (v, Some e, w1) /\
        select_After_Done ctx (backoff a') w1 = (CtxDone ce, w2) /\
        loop a w =
        after (rounds a k) (emit EvCall (on_Done (backoff a') ce w2)))).
Proof.
  by_attempts a w Ha IH. intros w.
  pose proof (loop_body a w) as Hbody.
  replace (uint_val a <=? uint_val maxRetries) with true in Hbody
    by (symmetry; apply Z.leb_le; lia).
  destruct (fn w) as [[v [e|]] w1] eqn:Hfn.
  - destruct (uint_val a =? uint_val maxRetries) eqn:Hlast.
    + apply Z.eqb_eq in Hlast.
      exists 0%nat, a, w. repeat split; try lia.
      right; left. exists v, e, w1. rewrite after_nil. auto.
    + apply Z.eqb_neq in Hlast.
      assert (Hlt : uint_val a < uint_val maxRetries) by lia.
      destruct (select_After_Done ctx (backoff a) w1) as [[|ce] w2] eqn:Hsel.
      * destruct (IH Hlt w2) as (k & a' & wk & Hrun & Ha' & Hle & Hend).
        rewrite (uint_incr_val a maxRetries Hlt) in Ha'.
        exists (S k), a', wk.
        split; [cbn [Retry.retries]; rewrite Hfn, Hsel; exact Hrun |].
        split; [lia |]. split; [exact Hle |].
        destruct Hend as [(v' & w' & Hfn' & Heq)
                         | [(v' & e' & w' & Hm & Hfn' & Heq)
                           | (v' & e' & w1' & ce & w2' & Hm & Hfn' & Hsel' & Heq)]];
          rewrite Heq in Hbody.
        -- left. exists v', w'. split; [exact Hfn' | exact Hbody].
        -- right; left. exists v', e', w'. repeat split; trivial.
        -- right; right. exists v', e', w1', ce, w2'. repeat split; trivial.
      * exists 0%nat, a, w. repeat split; try lia.
        right; right. exists v, e, w1, ce, w2. rewrite after_nil. auto.
  - exists 0%nat, a, w. repeat split; try lia.
    left. exists v, w1. rewrite after_nil. auto.
Qed.


(** X1. With a deadline on the context every call is of one of three
    kinds, after some [k <= maxRetries] rounds of failure and timer: the
    next invocation succeeds and its value is returned; or [k] is
    [maxRetries], the next invocation fails and its error is returned; or
    [k < maxRetries], the next invocation fails and the wait after it is
    ended by [ctx.Done()], whose error is returned.  In each case the trace
    is the [k] rounds followed by the last invocation and, in the third
    case only, the cancelled wait and one log line. *)
Theorem every_run_is_one_of_three (d : time_Time) (w : W) :
  Deadline ctx = Some d ->
  exists (k : nat) (a' : uint) (wk : W),
    Z.of_nat k <= uint_val maxRetries /\
    retries k (uint_of_Z 0) w = Some (a', wk) /\
    ((exists (v : T) (w' : W),
        fn wk = (v, None, w') /\
        ExponentialRetry w =
        {| ret_val := v; ret_err := None; world := w';
           trace := rounds (uint_of_Z 0) k ++ [EvCall] |}) \/
     (exists (v : T) (e : E) (w' : W),
        Z.of_nat k = uint_val maxRetries /\
        fn wk = (v, Some e, w') /\
        ExponentialRetry w =
        {| ret_val := zero; ret_err := Some (Foreign e); world := w';
           trace := rounds (uint_of_Z 0) k ++ [EvCall] |}) \/
     (exists (v : T) (e : E) (w1 : W) (ce : E) (w2 : W),
        Z.of_nat k < uint_val maxRetries /\
        fn wk = (v, Some e, w1) /\
        select_After_Done ctx (backoff a') w1 = (CtxDone ce, w2) /\
        ExponentialRetry w =
        {| ret_val := zero; ret_err := Some (Foreign ce); world := w2;
           trace :=
             rounds (uint_of_Z 0) k ++
             [EvCall; EvDone (backoff a');
              EvLog (if is_DeadlineExceeded ce
                     then "deadline exceeded"
                     else "canceled or timeout")%string] |})).
Proof.
  intros Hd. rewrite (with_deadline d w Hd).
  destruct (loop_classified (uint_of_Z 0) w zero_le_maxRetries)
    as (k & a' & wk & Hrun & Ha' & Hle & Hend).
  change (uint_val (uint_of_Z 0)) with 0 in Ha'.
  exists k, a', wk. split; [lia |]. split; [exact Hrun |].
  destruct Hend as [(v & w' & Hfn & ->)
                   | [(v & e & w' & Hm & Hfn & ->)
                     | (v & e & w1 & ce & w2 & Hm & Hfn & Hsel & ->)]].
  - left. exists v, w'. split; [exact Hfn | reflexivity].
  - right; left. exists v, e, w'. repeat split; trivial. lia.
  - right; right. exists v, e, w1, ce, w2. repeat split; trivial. lia.
Qed.

(** X2. With [maxRetries = 0] and a deadline the operation is invoked
    exactly once and the call never waits nor logs: it returns the value of
    that invocation with a nil error, or the zero value with the error of
    that invocation. *)
Theorem no_retries_means_one_attempt (d : time_Time) (w : W) :
  uint_val maxRetries = 0 ->
  Deadline ctx = Some d ->
  let r := ExponentialRetry w in
  trace r = [EvCall] /\
  world r = snd (fn w) /\
  match snd (fst (fn w)) with
  | None => ret_val r = fst (fst (fn w)) /\ ret_err r = None
  | Some e => ret_val r = zero /\ ret_err r = Some (Foreign e)
  end.
Proof.
  intros Hm Hd r. subst r. rewrite (with_deadline d w Hd).
  rewrite (loop_body (uint_of_Z 0) w), Hm.
  change (uint_val (uint_of_Z 0)) with 0. cbn [Z.leb Z.eqb Z.compare].
  destruct (fn w) as [[v [e|]] w1]; cbn; auto.
Qed.

(** X3. With a deadline the operation is invoked at least once; the call
    waits at most [maxRetries] times; and waits and invocations alternate,
    so that there are as many waits as invocations or one less. *)
Theorem waits_and_invocations_alternate (d : time_Time) (w : W) :
  Deadline ctx = Some d ->
  let tr := trace (ExponentialRetry w) in
  1 <= invocations tr /\
  Z.of_nat (List.length (waits tr)) <= uint_val maxRetries /\
  invocations tr - 1 <= Z.of_nat (List.length (waits tr)) <= invocations tr.
Proof.
  intros Hd tr. subst tr. rewrite (with_deadline d w Hd).
  destruct (loop_classified (uint_of_Z 0) w zero_le_maxRetries)
    as (k & a' & wk & _ & Ha' & Hle & Hend).
  change (uint_val (uint_of_Z 0)) with 0 in Ha'.
  destruct Hend as [(v & w' & _ & ->)
                   | [(v & e & w' & _ & _ & ->)
                     | (v & e & w1 & ce & w2 & Hm & _ & _ & ->)]];
    cbn [after emit ret Retry.on_Done trace];
    rewrite invocations_rounds, waits_rounds;
    rewrite invocations_cons_call;
    repeat (rewrite invocations_cons_other by reflexivity);
    change (invocations []) with 0; cbn [waits List.length]; lia.
Qed.


(** X5. Nothing is made up.  A nil error comes with a value that the
    operation returned with a nil error, in the world that invocation left.
    An error is the one made for a missing deadline, or an error that the
    operation returned, or the error of the context when [ctx.Done()] ended
    a wait; the world is the one that invocation or that wait left. *)
Theorem results_come_from_outside (w : W) :
  let r := ExponentialRetry w in
  match ret_err r with
  | None => exists wk : W, fn wk = (ret_val r, None, world r)
  | Some (errors_New msg) =>
      Deadline ctx = None /\ msg = "no deadline set by caller"%string /\
      world r = w
  | Some (Foreign e) =>
      (exists (wk : W) (v : T), fn wk = (v, Some e, world r)) \/
      (exists (dur : Duration) (w1 : W),
         select_After_Done ctx dur w1 = (CtxDone e, world r))
  end.
Proof.
  intros r. subst r. unfold Retry.ExponentialRetry.
  destruct (Deadline ctx) as [d|]; [| cbn; auto].
  destruct (loop_classified (uint_of_Z 0) w zero_le_maxRetries)
    as (k & a' & wk & _ & _ & _ & Hend).
  destruct Hend as [(v & w' & Hfn & ->)
                   | [(v & e & w' & _ & Hfn & ->)
                     | (v & e & w1 & ce & w2 & _ & _ & Hsel & ->)]];
    cbn [after emit ret Retry.on_Done trace ret_err ret_val world].
  - exists wk. exact Hfn.
  - left. exists wk, v. exact Hfn.
  - right. exists (backoff a'), w1. exact Hsel.
Qed.

(** X6. While the products fit [int64], each backoff wait is twice the one
    before it. *)
Theorem each_wait_doubles_the_last (w : W) (i : nat) (d1 d2 : Duration) :
  nth_error (waits (trace (ExponentialRetry w))) i = Some d1 ->
  nth_error (waits (trace (ExponentialRetry w))) (S i) = Some d2 ->
  in_int64 (baseBackoff * 2 ^ Z.of_nat (S i)) ->
  d2 = 2 * d1.
Proof.
  unfold Retry.ExponentialRetry.
  destruct (Deadline ctx) as [d|]; [| destruct i; discriminate].
  intros H1 H2 Hfit.
  apply (loop_waits (uint_of_Z 0) w zero_le_maxRetries) in H1, H2.
  destruct H1 as [Hi1 ->]. destruct H2 as [Hi2 ->].
  pose proof (uint_val_range maxRetries) as Hm.
  change (uint_val (uint_of_Z 0)) with 0 in *. rewrite Z.add_0_l in *.
  rewrite ?Z.add_0_l.
  rewrite !backoff_of_wrap, !uint_of_Z_val by lia.
  rewrite Nat2Z.inj_succ, Z.pow_succ_r in * by lia.
  unfold in_int64, int64_min, int64_max in Hfit.
  rewrite !int64_wrap_small
    by (unfold in_int64, int64_min, int64_max; lia).
  lia.
Qed.

(** X7. From attempt 64 on the shift [1<<attempt] leaves nothing: every
    later wait is handed a backoff of 0, whatever [baseBackoff] is. *)
Theorem no_backoff_from_attempt_64 (w : W) (i : nat) (dur : Duration) :
  nth_error (waits (trace (ExponentialRetry w))) i = Some dur ->
  64 <= Z.of_nat i ->
  dur = 0.
Proof.
  unfold Retry.ExponentialRetry.
  destruct (Deadline ctx) as [d|]; [| destruct i; discriminate].
  intros Hnth Hi.
  apply (loop_waits (uint_of_Z 0) w zero_le_maxRetries) in Hnth.
  destruct Hnth as [Hlt ->].
  pose proof (uint_val_range maxRetries) as Hm.
  change (uint_val (uint_of_Z 0)) with 0 in *. rewrite Z.add_0_l in *.
  unfold backoff_of, int64_shl. rewrite uint_of_Z_val by lia.
  replace (64 <=? Z.of_nat i) with true by (symmetry; apply Z.leb_le; lia).
  unfold int64_mul. rewrite Z.mul_0_r. reflexivity.
Qed.

End Loop.

(** *** The theorems at work on the scenarios *)

Import Scenario.

Example scenario_A_runs :
  (ret_val scenario_A, ret_err scenario_A, trace scenario_A) =
  (0, Some (Foreign (errorString "boom")),
   [EvCall; EvTimer 10000000; EvCall; EvTimer 20000000;
    EvCall; EvTimer 40000000; EvCall]).
Proof. vm_compute. reflexivity. Qed.

Example scenario_B_runs :
  (ret_val scenario_B, ret_err scenario_B, trace scenario_B) =
  (7, None, [EvCall; EvTimer 5000000; EvCall; EvTimer 10000000; EvCall]).
Proof. vm_compute. reflexivity. Qed.

Example scenario_C_runs :
  (ret_val scenario_C, ret_err scenario_C, trace scenario_C) =
  (0, Some (Foreign context_DeadlineExceeded),
   [EvCall; EvDone 100000000; EvLog "deadline exceeded"]).
Proof. vm_compute. reflexivity. Qed.

Example scenario_D_runs :
  (ret_val scenario_D, ret_err scenario_D, trace scenario_D) =
  (0, Some (errors_New "no deadline set by caller"), []).
Proof. vm_compute. reflexivity. Qed.

Example scenario_overflow_waits :
  waits (trace scenario_overflow) =
  [4611686018427387904; -9223372036854775808].
Proof. vm_compute. reflexivity. Qed.

Lemma no_deadline_fails_fast_witness :
  Deadline Background = None /\
  ret_err scenario_D = Some (errors_New "no deadline set by caller") /\
  invocations (trace scenario_D) = 0.
Proof.
  split; [reflexivity |].
  destruct (no_deadline_fails_fast 0 is_DeadlineExceeded Background
              (uint_of_Z 2) millisecond third_time_lucky start eq_refl)
    as (Hr & Hn & _).
  split; [| exact Hn].
  unfold scenario_D, run. rewrite Hr. reflexivity.
Defined.

Lemma at_most_maxRetries_plus_one_invocations_witness :
  Deadline (WithTimeout second) = Some second /\
  invocations (trace scenario_A) <= 3 + 1.
Proof.
  split; [reflexivity |].
  exact (at_most_maxRetries_plus_one_invocations 0 is_DeadlineExceeded
           (WithTimeout second) (uint_of_Z 3) (10 * millisecond) always_boom
           second start eq_refl).
Defined.

Lemma first_success_is_returned_witness :
  retries (WithTimeout second) (5 * millisecond) third_time_lucky
    2 (uint_of_Z 0) start
  = Some (uint_of_Z 2, {| now := 17 * millisecond; called := 2 |}) /\
  ret_val scenario_B = 7 /\
  ret_err scenario_B = None /\
  invocations (trace scenario_B) = 3.
Proof.
  split; [vm_compute; reflexivity |].
  destruct (first_success_is_returned 0 is_DeadlineExceeded
              (WithTimeout second) (uint_of_Z 5) (5 * millisecond)
              third_time_lucky second start 2
              (uint_incr (uint_incr (uint_of_Z 0)))
              {| now := 17 * millisecond; called := 2 |} 7
              {| now := 18 * millisecond; called := 3 |}
              eq_refl ltac:(vm_compute; discriminate) eq_refl eq_refl)
    as (Hv & He & _ & Hn & _).
  repeat split; assumption.
Defined.

Lemma exhaustion_returns_last_error_witness :
  retries (WithTimeout second) (10 * millisecond) always_boom
    3 (uint_of_Z 0) start
  = Some (uint_of_Z 3, {| now := 73 * millisecond; called := 3 |}) /\
  ret_err scenario_A = Some (Foreign (errorString "boom")) /\
  invocations (trace scenario_A) = 4.
Proof.
  split; [vm_compute; reflexivity |].
  destruct (exhaustion_returns_last_error 0 is_DeadlineExceeded
              (WithTimeout second) (uint_of_Z 3) (10 * millisecond)
              always_boom second start
              (uint_incr (uint_incr (uint_incr (uint_of_Z 0))))
              {| now := 73 * millisecond; called := 3 |} 13
              (errorString "boom")
              {| now := 74 * millisecond; called := 4 |}
              eq_refl eq_refl eq_refl)
    as (He & _ & _ & Hn).
  split; assumption.
Defined.

Lemma cancellation_during_backoff_witness :
  select_After_Done (WithTimeout (10 * millisecond))
    (backoff_of (100 * millisecond) (uint_of_Z 0))
    {| now := millisecond; called := 1 |}
  = (CtxDone context_DeadlineExceeded,
     {| now := 10 * millisecond; called := 1 |}) /\
  ret_val scenario_C = 0 /\
  ret_err scenario_C = Some (Foreign context_DeadlineExceeded) /\
  invocations (trace scenario_C) = 1.
Proof.
  split; [vm_compute; reflexivity |].
  destruct (cancellation_during_backoff 0 is_DeadlineExceeded
              (WithTimeout (10 * millisecond)) (uint_of_Z 5)
              (100 * millisecond) always_boom (10 * millisecond) start 0
              (uint_of_Z 0) start 13 (errorString "boom")
              context_DeadlineExceeded
              {| now := millisecond; called := 1 |}
              {| now := 10 * millisecond; called := 1 |}
              eq_refl ltac:(vm_compute; reflexivity) eq_refl eq_refl eq_refl)
    as (Hv & He & _ & _ & Hn & _).
  repeat split; assumption.
Defined.


Lemma always_boom_with_three_retries_witness :
  uint_val (uint_of_Z 3) = 3 /\
  Deadline (Unhurried second) = Some second /\
  ret_err (run (Unhurried second) 3 (10 * millisecond) always_boom)
  = Some (Foreign (errorString "boom")) /\
  invocations (trace (run (Unhurried second) 3 (10 * millisecond) always_boom))
  = 4.
Proof.
  split; [reflexivity |]. split; [reflexivity |].
  exact (always_boom_with_three_retries 0 is_DeadlineExceeded
           (Unhurried second) (uint_of_Z 3) (10 * millisecond) always_boom
           second (errorString "boom") start eq_refl eq_refl
           (fun _ _ => eq_refl) (fun _ => eq_refl)).
Defined.

Lemma error_comes_with_zero_value_witness :
  ret_err scenario_A <> None /\ ret_val scenario_A = 0.
Proof.
  assert (H : ret_err scenario_A <> None) by (vm_compute; discriminate).
  split; [exact H |].
  exact (error_comes_with_zero_value 0 is_DeadlineExceeded
           (WithTimeout second) (uint_of_Z 3) (10 * millisecond) always_boom
           start H).
Defined.



(** *** The log line does not steer the call *)

Section LogChoice.

Context {T E W : Type}.
Variable zero : T.
Variables is_exceeded is_exceeded' : E -> bool.
Variable ctx : @Context E W.
Variable maxRetries : uint.
Variable baseBackoff : Duration.
Variable fn : W -> T * option E * W.

Lemma loop_whatever_the_log_says (a : uint) (w : W) :
  uint_val a <= uint_val maxRetries ->
  let r := loop zero is_exceeded ctx maxRetries baseBackoff fn a w in
  let r' := loop zero is_exceeded' ctx maxRetries baseBackoff fn a w in
  ret_val r = ret_val r' /\
  ret_err r = ret_err r' /\
  world r = world r' /\
  without_logs (trace r) = without_logs (trace r').
Proof.
  intros Ha. revert w. pattern a.
  apply (attempts_ind maxRetries); [| exact Ha].
  clear a Ha. intros a Ha IH w.
  rewrite (loop_body zero is_exceeded ctx maxRetries baseBackoff fn a w).
  rewrite (loop_body zero is_exceeded' ctx maxRetries baseBackoff fn a w).
  destruct (uint_val a <=? uint_val maxRetries); [| repeat split].
  destruct (fn w) as [[v [e|]] w1]; [| repeat split].
  destruct (uint_val a =? uint_val maxRetries) eqn:Hlast; [repeat split |].
  apply Z.eqb_neq in Hlast.
  destruct (select_After_Done ctx (backoff_of baseBackoff a) w1)
    as [[|ce] w2]; [| repeat split].
  destruct (IH ltac:(lia) w2) as (Hv & He & Hw & Htr).
  cbn [emit ret_val ret_err world trace without_logs].
  rewrite Htr. repeat split; assumption.
Qed.

(** X8. Which of the two log lines is written has no bearing on the call:
    with any two deadline-exceeded tests in its place, the value, the
    error and the world returned are the same, and so is the trace apart
    from its log lines. *)
Theorem log_line_does_not_steer (w : W) :
  let r := ExponentialRetry zero is_exceeded ctx maxRetries baseBackoff fn w in
  let r' := ExponentialRetry zero is_exceeded' ctx maxRetries baseBackoff fn w in
  ret_val r = ret_val r' /\
  ret_err r = ret_err r' /\
  world r = world r' /\
  without_logs (trace r) = without_logs (trace r').
Proof.
  unfold ExponentialRetry. destruct (Deadline ctx) as [d|].
  - apply loop_whatever_the_log_says, zero_le_maxRetries.
  - repeat split.
Qed.

End LogChoice.

Lemma every_run_is_one_of_three_witness :
  Deadline (WithTimeout second) = Some second /\
  exists (k : nat) (a' : uint) (wk : clock_world),
    Z.of_nat k <= uint_val (uint_of_Z 3) /\
    retries (WithTimeout second) (10 * millisecond) always_boom
      k (uint_of_Z 0) start = Some (a', wk).
Proof.
  split; [reflexivity |].
  destruct (every_run_is_one_of_three 0 is_DeadlineExceeded
              (WithTimeout second) (uint_of_Z 3) (10 * millisecond)
              always_boom second start eq_refl)
    as (k & a' & wk & Hk & Hrun & _).
  exists k, a', wk. split; assumption.
Defined.

Lemma no_retries_means_one_attempt_witness :
  uint_val (uint_of_Z 0) = 0 /\
  Deadline (WithTimeout second) = Some second /\
  trace scenario_single = [EvCall] /\
  ret_val scenario_single = 0 /\
  ret_err scenario_single = Some (Foreign (errorString "boom")).
Proof.
  split; [reflexivity |]. split; [reflexivity |].
  destruct (no_retries_means_one_attempt 0 is_DeadlineExceeded
              (WithTimeout second) (uint_of_Z 0) (10 * millisecond)
              always_boom second start eq_refl eq_refl)
    as (Htr & _ & Hv & He).
  repeat split; assumption.
Defined.

Lemma waits_and_invocations_alternate_witness :
  Deadline (WithTimeout (10 * millisecond)) = Some (10 * millisecond) /\
  1 <= invocations (trace scenario_C) /\
  Z.of_nat (List.length (waits (trace scenario_C))) <= 5.
Proof.
  split; [reflexivity |].
  destruct (waits_and_invocations_alternate 0 is_DeadlineExceeded
              (WithTimeout (10 * millisecond)) (uint_of_Z 5)
              (100 * millisecond) always_boom (10 * millisecond) start
              eq_refl)
    as (Hone & Hmax & _).
  split; assumption.
Defined.

Lemma each_wait_doubles_the_last_witness :
  nth_error (waits (trace scenario_B)) 0 = Some (5 * millisecond) /\
  nth_error (waits (trace scenario_B)) 1 = Some (10 * millisecond) /\
  in_int64 (5 * millisecond * 2 ^ Z.of_nat 1) /\
  10 * millisecond = 2 * (5 * millisecond).
Proof.
  assert (Hfit : in_int64 (5 * millisecond * 2 ^ Z.of_nat 1))
    by (vm_compute; split; discriminate).
  split; [vm_compute; reflexivity |].
  split; [vm_compute; reflexivity |].
  split; [exact Hfit |].
  exact (each_wait_doubles_the_last 0 is_DeadlineExceeded
           (WithTimeout second) (uint_of_Z 5) (5 * millisecond)
           third_time_lucky start 0 (5 * millisecond) (10 * millisecond)
           eq_refl eq_refl Hfit).
Defined.

Lemma no_backoff_from_attempt_64_witness :
  nth_error (waits (trace scenario_long)) 64 = Some 0 /\
  64 <= Z.of_nat 64 /\
  nth_error (waits (trace scenario_long)) 63 = Some (-9223372036854775808).
Proof.
  assert (Hi : 64 <= Z.of_nat 64) by (vm_compute; discriminate).
  assert (Hnth : exists dur : Duration,
             nth_error (waits (trace scenario_long)) 64 = Some dur)
    by (eexists; vm_compute; reflexivity).
  destruct Hnth as [dur Hnth].
  pose proof (no_backoff_from_attempt_64 0 is_DeadlineExceeded
                (Unhurried second) (uint_of_Z 65) 1 always_boom start 64 dur
                Hnth Hi) as Hzero.
  rewrite Hzero in Hnth.
  split; [exact Hnth |]. split; [exact Hi |].
  vm_compute. reflexivity.
Defined.

End RetrySpec.

Module RoundTripSpec.

Import RoundTrip GoIntFacts.

Section Replay.

Context {Response Request : Type}.

Local Abbreviation transport := (@TestingRoundTripper Response).
Local Abbreviation RoundTrip := (@RoundTrip Response Request).
Local Abbreviation RoundTrips := (@RoundTrips Response Request).

Lemma len_nonneg {A : Type} (s : list A) : 0 <= len s.
Proof. unfold len. lia. Qed.

Lemma at_index_in_range {A : Type} (s : list A) (i : Z) :
  0 <= i < len s ->
  exists x : A, nth_error s (Z.to_nat i) = Some x /\ at_index s i = Some x.
Proof.
  intros Hi. unfold at_index.
  replace (i <? 0) with false by (symmetry; apply Z.ltb_ge; lia).
  replace (len s <=? i) with false by (symmetry; apply Z.leb_gt; lia).
  destruct (nth_error s (Z.to_nat i)) as [x|] eqn:Hx.
  - exists x. split; reflexivity.
  - apply nth_error_None in Hx. unfold len in Hi. lia.
Qed.

(** A call with the index inside the list hands out the response stored
    there and moves the index by one. *)
Lemma RoundTrip_next (srt : transport) (req : option Request) :
  0 <= index srt < len (responses srt) ->
  len (responses srt) <= int64_max ->
  exists resp : option Response,
    nth_error (responses srt) (Z.to_nat (index srt)) = Some resp /\
    RoundTrip srt req =
    Returns (resp, None,
             {| responses := responses srt; index := index srt + 1;
                t := t srt |}).
Proof.
  intros Hi Hlen. unfold RoundTrip.RoundTrip.
  replace (len (responses srt) <=? index srt) with false
    by (symmetry; apply Z.leb_gt; lia).
  destruct (at_index_in_range (responses srt) (index srt) Hi)
    as (resp & Hnth & ->).
  exists resp. split; [exact Hnth |].
  rewrite int64_wrap_small; [reflexivity |].
  unfold in_int64, int64_min, int64_max in *. lia.
Qed.

(** A call with the index at or past the end fails and moves nothing. *)
Lemma RoundTrip_exhausted (srt : transport) (req : option Request) :
  len (responses srt) <= index srt ->
  exists srt' : transport,
    RoundTrip srt req = Returns (None, Some ErrNoMockResponse, srt') /\
    responses srt' = responses srt /\
    index srt' = index srt.
Proof.
  intros Hi. unfold RoundTrip.RoundTrip.
  replace (len (responses srt) <=? index srt) with true
    by (symmetry; apply Z.leb_le; lia).
  eexists. split; [reflexivity |]. split; reflexivity.
Qed.

Lemma replayed_past_end (rs : list (option Response)) (k : nat) :
  len rs <= Z.of_nat k -> replayed rs k = (None, Some ErrNoMockResponse).
Proof.
  intros Hk. unfold replayed.
  replace (nth_error rs k) with (@None (option Response)); [reflexivity |].
  symmetry. apply nth_error_None. unfold len in Hk. lia.
Qed.

(** Any number of calls, from any index inside the list or at its end. *)
Lemma RoundTrips_from (reqs : list (option Request)) (srt : transport) :
  0 <= index srt <= len (responses srt) ->
  len (responses srt) <= int64_max ->
  exists srt' : transport,
    RoundTrips srt reqs =
    Returns (map (replayed (responses srt))
               (seq (Z.to_nat (index srt)) (List.length reqs)), srt') /\
    responses srt' = responses srt /\
    index srt' = Z.min (index srt + len reqs) (len (responses srt)).
Proof.
  revert srt. induction reqs as [|req reqs IH]; intros srt Hi Hlen.
  - exists srt. split; [reflexivity |]. split; [reflexivity |].
    change (len (@nil (option Request))) with 0. lia.
  - cbn [RoundTrip.RoundTrips List.length seq map].
    assert (Hcons : len (req :: reqs) = len reqs + 1)
      by (unfold len; cbn [List.length]; lia).
    destruct (Z.eq_dec (index srt) (len (responses srt))) as [Hend | Hin].
    + destruct (RoundTrip_exhausted srt req ltac:(lia))
        as (srt1 & -> & Hrs & Hidx).
      destruct (IH srt1) as (srt' & -> & Hrs' & Hidx');
        [rewrite Hrs, Hidx; lia | rewrite Hrs; exact Hlen |].
      exists srt'. rewrite Hrs, Hidx in *.
      rewrite replayed_past_end by lia.
      split; [| split; [congruence |]].
      * f_equal. f_equal. f_equal.
        rewrite <- seq_shift, map_map.
        apply map_ext_in. intros j Hj. apply in_seq in Hj.
        rewrite !replayed_past_end by lia. reflexivity.
      * pose proof (len_nonneg reqs). lia.
    + destruct (RoundTrip_next srt req ltac:(lia) Hlen)
        as (resp & Hnth & ->).
      destruct (IH {| responses := responses srt; index := index srt + 1;
                      t := t srt |})
        as (srt' & -> & Hrs' & Hidx'); cbn [responses index]; [lia | lia |].
      cbn [responses index] in *.
      exists srt'. split; [| split; [exact Hrs' | lia]].
      unfold replayed at 2. rewrite Hnth.
      replace (Z.to_nat (index srt + 1)) with (S (Z.to_nat (index srt)))
        by lia.
      reflexivity.
Qed.

(** C10. A transport whose index is 0 replays its responses in order.
    After any [k] calls, none of which panics, the responses are the same
    list and call number [j < k] returned response [j] with a nil error
    when there is one, nil with [ErrNoMockResponse] otherwise.  Call number
    [k] then returns response [k] with a nil error and moves the index from
    [k] to [k + 1] when [k < len(responses)], and returns nil with
    [ErrNoMockResponse] with the responses and the index unchanged when
    not.  The latter holds in every state whose index is at or past the
    end of the list. *)
Theorem RoundTrip_replays_in_order (srt : transport)
  (reqs : list (option Request)) (req : option Request) :
  index srt = 0 ->
  len (responses srt) <= int64_max ->
  let k := List.length reqs in
  (exists (srt_k : transport),
     RoundTrips srt reqs =
       Returns (map (replayed (responses srt)) (seq 0 k), srt_k) /\
     responses srt_k = responses srt /\
     match nth_error (responses srt) k with
     | Some resp =>
         index srt_k = Z.of_nat k /\
         RoundTrip srt_k req =
           Returns (resp, None,
                    {| responses := responses srt_k;
                       index := Z.of_nat k + 1;
                       t := t srt_k |})
     | None =>
         index srt_k = len (responses srt) /\
         exists srt' : transport,
           RoundTrip srt_k req = Returns (None, Some ErrNoMockResponse, srt') /\
           responses srt' = responses srt_k /\
           index srt' = index srt_k
     end) /\
  (forall (any : transport) (req' : option Request),
     len (responses any) <= index any ->
     exists srt' : transport,
       RoundTrip any req' = Returns (None, Some ErrNoMockResponse, srt') /\
       responses srt' = responses any /\
       index srt' = index any).
Proof.
  intros H0 Hlen k. split; [| intros any req'; apply RoundTrip_exhausted].
  pose proof (len_nonneg (responses srt)) as Hpos.
  destruct (RoundTrips_from reqs srt ltac:(lia) Hlen)
    as (srt_k & Hrun & Hrs & Hidx).
  rewrite H0 in Hrun, Hidx. cbn in Hrun.
  exists srt_k. split; [exact Hrun |]. split; [exact Hrs |].
  fold k in Hidx. change (len reqs) with (Z.of_nat k) in Hidx.
  destruct (nth_error (responses srt) k) as [resp|] eqn:Hnth.
  - assert (Hk : Z.of_nat k < len (responses srt)).
    { unfold len. apply Nat2Z.inj_lt. apply nth_error_Some. congruence. }
    assert (Hik : index srt_k = Z.of_nat k) by lia.
    split; [exact Hik |].
    destruct (RoundTrip_next srt_k req) as (resp' & Hnth' & ->);
      [rewrite Hrs; lia | rewrite Hrs; lia |].
    rewrite Hrs, Hik, Nat2Z.id, Hnth in Hnth'. injection Hnth' as <-.
    rewrite Hik. reflexivity.
  - apply nth_error_None in Hnth.
    assert (Hik : index srt_k = len (responses srt)) by (unfold len in *; lia).
    split; [exact Hik |].
    apply RoundTrip_exhausted. rewrite Hrs. lia.
Qed.

(** *** More on the transport: the builders and the test handle *)

Local Abbreviation call := (@call Response Request).
Local Abbreviation calls := (@calls Response Request).

(** A call on a transport whose index is not negative returns; the index
    stays or moves up by one. *)
Lemma RoundTrip_returns (srt : transport) (req : option Request) :
  0 <= index srt < int64_max ->
  exists (resp : option Response) (err : option error) (srt' : transport),
    RoundTrip srt req = Returns (resp, err, srt') /\
    index srt <= index srt' <= index srt + 1.
Proof.
  intros Hi. unfold RoundTrip.RoundTrip.
  destruct (len (responses srt) <=? index srt) eqn:Hend.
  - do 3 eexists. split; [reflexivity |]. cbn. lia.
  - apply Z.leb_gt in Hend.
    destruct (at_index_in_range (responses srt) (index srt) ltac:(lia))
      as (resp & _ & ->).
    do 3 eexists. split; [reflexivity |]. cbn [index].
    rewrite int64_wrap_small; [lia |].
    unfold in_int64, int64_min, int64_max in *. lia.
Qed.

Lemma calls_from (cs : list call) (srt : transport) :
  0 <= index srt ->
  index srt + Z.of_nat (List.length cs) <= int64_max ->
  exists srt' : transport,
    calls srt cs = Returns srt' /\
    index srt <= index srt' <= index srt + Z.of_nat (List.length cs).
Proof.
  revert srt. induction cs as [|c cs IH]; intros srt Hi Hmax.
  - exists srt. split; [reflexivity |]. cbn [List.length]. lia.
  - cbn [List.length] in *. rewrite Nat2Z.inj_succ in *.
    destruct c as [t' | rs | response | req]; cbn [RoundTrip.calls].
    + destruct (IH (WithTest srt t')) as (srt' & -> & Hidx);
        cbn [index WithTest]; try lia.
      exists srt'. split; [reflexivity |]. cbn [index WithTest] in Hidx. lia.
    + destruct (IH (WithMockResponses srt rs)) as (srt' & -> & Hidx);
        cbn [index WithMockResponses]; try lia.
      exists srt'. split; [reflexivity |].
      cbn [index WithMockResponses] in Hidx. lia.
    + destruct (IH (AddMockResponse srt response)) as (srt' & -> & Hidx);
        cbn [index AddMockResponse]; try lia.
      exists srt'. split; [reflexivity |].
      cbn [index AddMockResponse] in Hidx. lia.
    + destruct (RoundTrip_returns srt req ltac:(lia))
        as (resp & err & srt1 & -> & Hstep).
      destruct (IH srt1) as (srt' & -> & Hidx); try lia.
      exists srt'. split; [reflexivity |]. lia.
Qed.

(** X9. Whatever is done with a transport that starts as
    [&TestingRoundTripper{}] (setting the test handle, replacing or adding
    responses, round trips, in any order and number below [2^63]), no call
    panics, and the index is never negative nor larger than the number of
    calls made. *)
Theorem transport_never_panics (cs : list call) :
  Z.of_nat (List.length cs) <= int64_max ->
  exists srt : transport,
    calls zero_value cs = Returns srt /\
    0 <= index srt <= Z.of_nat (List.length cs).
Proof.
  intros Hmax.
  destruct (calls_from cs zero_value) as (srt & Hrun & Hidx);
    cbn [index zero_value]; try lia.
  exists srt. split; [exact Hrun |]. cbn [index zero_value] in Hidx. lia.
Qed.

(** X10. Replacing the responses does not rewind the transport: the next
    call serves the new list at the old index, and fails with
    [ErrNoMockResponse] when the new list is not that long. *)
Theorem WithMockResponses_keeps_the_index (srt : transport)
  (rs : list (option Response)) (req : option Request) :
  0 <= index srt ->
  len rs <= int64_max ->
  RoundTrip (WithMockResponses srt rs) req =
  match nth_error rs (Z.to_nat (index srt)) with
  | Some resp =>
      Returns (resp, None,
               {| responses := rs; index := index srt + 1; t := t srt |})
  | None =>
      Returns (None, Some ErrNoMockResponse,
               {| responses := rs; index := index srt;
                  t := Errorf (t srt)
                         "no mock response for request at index %d"
                         (index srt) |})
  end.
Proof.
  intros Hi Hlen.
  destruct (nth_error rs (Z.to_nat (index srt))) as [resp|] eqn:Hnth.
  - assert (Hin : index srt < len rs).
    { unfold len. assert (Z.to_nat (index srt) < List.length rs)%nat
        by (apply nth_error_Some; congruence). lia. }
    destruct (RoundTrip_next (WithMockResponses srt rs) req)
      as (resp' & Hnth' & ->); cbn [responses index WithMockResponses];
      try lia.
    cbn [responses index WithMockResponses t] in *.
    congruence.
  - apply nth_error_None in Hnth.
    unfold RoundTrip.RoundTrip. cbn [responses index WithMockResponses t].
    replace (len rs <=? index srt) with true
      by (symmetry; apply Z.leb_le; unfold len; lia).
    reflexivity.
Qed.

(** X11. A response added with [AddMockResponse] is queued behind the
    others: a transport that has run out serves it on the next call, and a
    transport that has not serves what it would have served without it. *)
Theorem AddMockResponse_queues_behind (srt : transport)
  (response : option Response) (req : option Request) :
  0 <= index srt ->
  len (responses srt) < int64_max ->
  (index srt = len (responses srt) ->
   RoundTrip (AddMockResponse srt response) req =
   Returns (response, None,
            {| responses := responses srt ++ [response];
               index := index srt + 1; t := t srt |})) /\
  (forall (resp : option Response) (srt' : transport),
     RoundTrip srt req = Returns (resp, None, srt') ->
     RoundTrip (AddMockResponse srt response) req =
     Returns (resp, None, AddMockResponse srt' response)).
Proof.
  intros Hi Hlen.
  assert (Hlen' : len (responses srt ++ [response]) = len (responses srt) + 1).
  { unfold len. rewrite length_app. cbn [List.length]. lia. }
  split.
  - intros Hend.
    destruct (RoundTrip_next (AddMockResponse srt response) req)
      as (resp' & Hnth' & ->); cbn [responses index AddMockResponse];
      try lia.
    cbn [responses index AddMockResponse t] in *.
    rewrite nth_error_app2 in Hnth' by (unfold len in Hend; lia).
    replace (Z.to_nat (index srt) - List.length (responses srt))%nat
      with 0%nat in Hnth' by (unfold len in Hend; lia).
    cbn in Hnth'. congruence.
  - intros resp srt'. unfold RoundTrip.RoundTrip.
    cbn [responses index AddMockResponse t].
    destruct (len (responses srt) <=? index srt) eqn:Hend; [discriminate |].
    apply Z.leb_gt in Hend.
    replace (len (responses srt ++ [response]) <=? index srt) with false
      by (symmetry; apply Z.leb_gt; lia).
    destruct (at_index_in_range (responses srt) (index srt) ltac:(lia))
      as (x & Hx & ->).
    destruct (at_index_in_range (responses srt ++ [response]) (index srt)
                ltac:(lia)) as (y & Hy & ->).
    rewrite nth_error_app1 in Hy by (unfold len in Hend; lia).
    intros [= <- <-]. unfold AddMockResponse. cbn [responses index t].
    congruence.
Qed.

(** X12. Adding responses one by one is installing them at once: a chain of
    [AddMockResponse] leaves the transport that [WithMockResponses] leaves
    with the old responses followed by the new ones. *)
Theorem AddMockResponse_one_by_one (srt : transport)
  (rs : list (option Response)) :
  fold_left AddMockResponse rs srt =
  WithMockResponses srt (responses srt ++ rs).
Proof.
  revert srt. induction rs as [|r rs IH]; intros srt; cbn [fold_left].
  - rewrite app_nil_r. destruct srt. reflexivity.
  - rewrite IH. unfold WithMockResponses.
    cbn [responses index t AddMockResponse].
    rewrite <- app_assoc. reflexivity.
Qed.

(** The test handle after any number of calls. *)
Lemma RoundTrips_report (reqs : list (option Request)) (srt : transport) :
  0 <= index srt <= len (responses srt) ->
  len (responses srt) <= int64_max ->
  exists (outs : list (option Response * option error)) (srt' : transport),
    RoundTrips srt reqs = Returns (outs, srt') /\
    t srt' =
    option_map
      (fun log =>
         log ++
         repeat ("no mock response for request at index %d"%string,
                 len (responses srt))
           (List.length reqs - Z.to_nat (len (responses srt) - index srt)))
      (t srt).
Proof.
  revert srt. induction reqs as [|req reqs IH]; intros srt Hi Hlen.
  - exists [], srt. split; [reflexivity |].
    cbn [List.length Nat.sub repeat]. destruct (t srt); cbn; [| reflexivity].
    rewrite app_nil_r. reflexivity.
  - cbn [RoundTrip.RoundTrips List.length].
    destruct (Z.eq_dec (index srt) (len (responses srt))) as [Hend | Hin].
    + unfold RoundTrip.RoundTrip at 1.
      replace (len (responses srt) <=? index srt) with true
        by (symmetry; apply Z.leb_le; lia).
      destruct (IH (WithTest srt
                      (Errorf (t srt)
                         "no mock response for request at index %d"
                         (index srt))))
        as (outs & srt' & -> & Ht); cbn [responses index WithTest]; trivial.
      do 2 eexists. split; [reflexivity |].
      rewrite Ht. cbn [responses index t WithTest].
      rewrite Hend, Z.sub_diag. cbn [Z.to_nat]. rewrite !Nat.sub_0_r.
      destruct (t srt) as [log|]; cbn [Errorf option_map repeat];
        [| reflexivity].
      rewrite <- app_assoc. reflexivity.
    + destruct (RoundTrip_next srt req ltac:(lia) Hlen)
        as (resp & _ & ->).
      destruct (IH {| responses := responses srt; index := index srt + 1;
                      t := t srt |})
        as (outs & srt' & -> & Ht); cbn [responses index]; try lia.
      do 2 eexists. split; [reflexivity |].
      rewrite Ht. cbn [responses index t].
      replace (S (List.length reqs)
               - Z.to_nat (len (responses srt) - index srt))%nat
        with (List.length reqs
              - Z.to_nat (len (responses srt) - (index srt + 1)))%nat
        by lia.
      reflexivity.
Qed.

(** X13. A transport whose index is 0 reports to its test handle once for
    every call beyond its responses, each time with the index
    [len(responses)], and not at all for the calls it serves; without a
    test handle nothing is reported. *)
Theorem Errorf_once_per_call_beyond (srt : transport)
  (reqs : list (option Request)) :
  index srt = 0 ->
  len (responses srt) <= int64_max ->
  exists (outs : list (option Response * option error)) (srt' : transport),
    RoundTrips srt reqs = Returns (outs, srt') /\
    t srt' =
    match t srt with
    | None => None
    | Some log =>
        Some (log ++
              repeat ("no mock response for request at index %d"%string,
                      len (responses srt))
                (List.length reqs - List.length (responses srt)))
    end.
Proof.
  intros H0 Hlen. pose proof (len_nonneg (responses srt)) as Hpos.
  destruct (RoundTrips_report reqs srt ltac:(lia) Hlen)
    as (outs & srt' & Hrun & Ht).
  exists outs, srt'. split; [exact Hrun |].
  rewrite Ht, H0, Z.sub_0_r. unfold len at 2. rewrite Nat2Z.id.
  destruct (t srt); reflexivity.
Qed.

End Replay.

Import Scenario.

Example token_refresh_runs :
  RoundTrips token_refresh
    [get_protected; post_refresh; get_protected; get_protected] =
  Returns ([(Some token_expired, None); (Some token_refreshed, None);
            (Some welcome, None); (None, Some ErrNoMockResponse)],
           {| responses := responses token_refresh; index := 3; t := None |}).
Proof. vm_compute. reflexivity. Qed.

Lemma RoundTrip_replays_in_order_witness :
  index token_refresh = 0 /\
  len (responses token_refresh) <= int64_max /\
  exists srt2 srt3 : TestingRoundTripper,
    RoundTrips token_refresh [get_protected; post_refresh] =
      Returns ([(Some token_expired, None); (Some token_refreshed, None)],
               srt2) /\
    RoundTrip srt2 get_protected = Returns (Some welcome, None, srt3) /\
    index srt3 = 3.
Proof.
  assert (Hlen : len (responses token_refresh) <= int64_max)
    by (vm_compute; discriminate).
  split; [reflexivity |]. split; [exact Hlen |].
  destruct (RoundTrip_replays_in_order token_refresh
              [get_protected; post_refresh] get_protected eq_refl Hlen)
    as [(srt2 & Hrun & _ & _ & Hcall) _].
  exists srt2. eexists. split; [exact Hrun |]. split; [exact Hcall |].
  reflexivity.
Defined.


Lemma transport_never_panics_witness :
  Z.of_nat (List.length busy) <= int64_max /\
  exists srt : TestingRoundTripper,
    calls zero_value busy = Returns srt /\ 0 <= index srt <= 6.
Proof.
  assert (Hmax : Z.of_nat (List.length busy) <= int64_max)
    by (vm_compute; discriminate).
  split; [exact Hmax |].
  exact (transport_never_panics busy Hmax).
Defined.

Lemma WithMockResponses_keeps_the_index_witness :
  0 <= index two_served /\
  len [Some welcome] <= int64_max /\
  exists srt' : TestingRoundTripper,
    RoundTrip (WithMockResponses two_served [Some welcome]) get_protected =
    Returns (None, Some ErrNoMockResponse, srt').
Proof.
  assert (Hi : 0 <= index two_served) by (vm_compute; discriminate).
  assert (Hlen : len [Some welcome] <= int64_max)
    by (vm_compute; discriminate).
  split; [exact Hi |]. split; [exact Hlen |].
  eexists.
  exact (WithMockResponses_keeps_the_index two_served [Some welcome]
           get_protected Hi Hlen).
Defined.

Lemma AddMockResponse_queues_behind_witness :
  0 <= index (@zero_value http_Response) /\
  len (responses (@zero_value http_Response)) < int64_max /\
  RoundTrip (AddMockResponse zero_value (Some welcome)) get_protected =
  Returns (Some welcome, None,
           {| responses := [Some welcome]; index := 1; t := None |}).
Proof.
  assert (Hi : 0 <= index (@zero_value http_Response))
    by (vm_compute; discriminate).
  assert (Hlen : len (responses (@zero_value http_Response)) < int64_max)
    by (vm_compute; reflexivity).
  split; [exact Hi |]. split; [exact Hlen |].
  exact (proj1 (AddMockResponse_queues_behind zero_value (Some welcome)
                  get_protected Hi Hlen) eq_refl).
Defined.

Lemma Errorf_once_per_call_beyond_witness :
  index watched = 0 /\
  len (responses watched) <= int64_max /\
  exists (outs : list (option http_Response * option error))
         (srt' : TestingRoundTripper),
    RoundTrips watched
      [get_protected; post_refresh; get_protected; get_protected;
       get_protected] = Returns (outs, srt') /\
    t srt' =
    Some [("no mock response for request at index %d"%string, 3);
          ("no mock response for request at index %d"%string, 3)].
Proof.
  assert (Hlen : len (responses watched) <= int64_max)
    by (vm_compute; discriminate).
  split; [reflexivity |]. split; [exact Hlen |].
  exact (Errorf_once_per_call_beyond watched
           [get_protected; post_refresh; get_protected; get_protected;
            get_protected] eq_refl Hlen).
Defined.

End RoundTripSpec.

Module MockResponseSpec.

Import MockResponse.

Section Built.

Variable StatusText : Z -> string.
Context {Request : Type}.

Local Abbreviation Response := (@Response Request).
Local Abbreviation WithStatus := (@WithStatus StatusText Request).
Local Abbreviation WithBody := (@WithBody Request).

(** The options that the package itself provides. *)
Local Abbreviation provided :=
  (fun o : Response -> Response =>
     (exists status : Z, o = WithStatus status) \/
     (exists body : list Byte.byte, o = WithBody body)).

Lemma options_keep_coherence (opts : list (Response -> Response))
  (r : Response) :
  Forall provided opts ->
  coherent StatusText r /\ Header r = [] /\ Request_ r = None ->
  let r' := fold_left (fun resp o => o resp) opts r in
  coherent StatusText r' /\ Header r' = [] /\ Request_ r' = None.
Proof.
  intros Hopts. revert r.
  induction Hopts as [|o opts Ho _ IH]; intros r Hr; cbn [fold_left].
  - exact Hr.
  - apply IH. destruct Hr as ((Hs & Hc) & Hh & Hq).
    destruct Ho as [[status ->] | [body ->]];
      unfold coherent; cbn; auto.
Qed.

(** X14. A response built by [newMockResponse] from any options made with
    [WithStatus] and [WithBody] has a status line that is its status code
    followed by the text of that code, a content length that is the length
    of its body, no header and no request. *)
Theorem newMockResponse_is_coherent (opts : list (Response -> Response)) :
  Forall provided opts ->
  let r := newMockResponse StatusText opts in
  Status r = Sprintf_d_s (StatusCode r) (StatusText (StatusCode r)) /\
  ContentLength r = Z.of_nat (List.length (Body r)) /\
  Header r = [] /\
  Request_ r = None.
Proof.
  intros Hopts r. subst r. unfold newMockResponse.
  match goal with
  | |- context [fold_left _ opts ?r0] =>
      destruct (options_keep_coherence opts r0 Hopts)
        as ((Hs & Hc) & Hh & Hq)
  end.
  - unfold coherent. cbn. auto.
  - auto.
Qed.

End Built.

Import Scenario.

Lemma newMockResponse_is_coherent_witness :
  Status (newMockResponse StatusText expired_options)
  = "401 Unauthorized"%string /\
  ContentLength (newMockResponse StatusText expired_options) = 13.
Proof.
  assert (Hopts :
    Forall (fun o : @Response http_Request -> @Response http_Request =>
              (exists status : Z, o = WithStatus StatusText status) \/
              (exists body : list Byte.byte, o = WithBody body))
      expired_options).
  { apply Forall_cons; [left; exists 401; reflexivity |].
    apply Forall_cons; [| apply Forall_nil].
    right. exists (list_byte_of_string "token expired"). reflexivity. }
  destruct (newMockResponse_is_coherent StatusText expired_options Hopts)
    as (Hs & Hc & _).
  split; [rewrite Hs | rewrite Hc]; vm_compute; reflexivity.
Defined.

End MockResponseSpec.
